(** * CharPointer_UTF32: a cursor over null-terminated UTF-32 text

    Shallow embedding of [src/text/juce_CharPointer_UTF32.h].

    The class wraps one raw pointer [data] into caller-owned memory.  Memory
    is a finite map from addresses (counted in code units) to code units;
    reading or writing an address that is not mapped, or doing signed
    arithmetic that overflows, is undefined behaviour and is rendered as
    [None].  Methods that mutate the cursor or the memory return the new
    cursor and the new memory explicitly. *)

From stdpp Require Import base numbers option list gmap fin_maps.

Local Open Scope Z_scope.

(** ** Machine integers *)

(** [size_t] on an LP64 target: 64 bits, unsigned, wrapping. *)
Definition size_t_bits : Z := 64.
Definition size_t_modulus : Z := 2 ^ size_t_bits.
Definition to_size_t (z : Z) : Z := z `mod` size_t_modulus.

(** [int]: 32 bits, signed; overflow is undefined behaviour. *)
Definition INT_MAX : Z := 2 ^ 31 - 1.

(** Modelled from the spec: the typedef of [juce_wchar] is not part of the
    source file; the glossary fixes the code unit at 32 bits, one unit per
    character, so [sizeof (CharType)] is 4 bytes. *)
Definition sizeof_CharType : Z := 4.

(** ** Memory *)

(** Addresses count code units, so the byte address of unit [a] is
    [sizeof_CharType * a].  Address 0 is the null pointer, and an object has
    to lie inside the address space. *)
Definition valid_addr (a : Z) : bool :=
  (0 <? a) && (sizeof_CharType * (a + 1) <=? size_t_modulus).

(** [*p] as an rvalue. *)
Definition load (h : gmap Z Z) (a : Z) : option Z :=
  if valid_addr a then h !! a else None.

(** [*p = v]. *)
Definition store (h : gmap Z Z) (a v : Z) : option (gmap Z Z) :=
  if valid_addr a then _ ← h !! a; Some (<[a := v]> h) else None.

(** ** The cursor *)

Record CharPointer_UTF32 : Type := mkCharPointer_UTF32 { data : Z }.

Add Printing Constructor CharPointer_UTF32.

(** [operator==]: [return data == other.data;] *)
Definition operator_eq (this other : CharPointer_UTF32) : bool :=
  data this =? data other.

(** [operator!=]: [return data == other.data;] *)
Definition operator_ne (this other : CharPointer_UTF32) : bool :=
  data this =? data other.

(** [getAddress] *)
Definition getAddress (this : CharPointer_UTF32) : Z := data this.

(** [isEmpty]: [return *data == 0;] *)
Definition isEmpty (h : gmap Z Z) (this : CharPointer_UTF32) : option bool :=
  c ← load h (data this); Some (c =? 0).

(** [operator*]: [return *data;] *)
Definition deref (h : gmap Z Z) (this : CharPointer_UTF32) : option Z :=
  load h (data this).

(** prefix [operator++] and [operator--] *)
Definition incr (this : CharPointer_UTF32) : CharPointer_UTF32 :=
  mkCharPointer_UTF32 (data this + 1).
Definition decr (this : CharPointer_UTF32) : CharPointer_UTF32 :=
  mkCharPointer_UTF32 (data this - 1).

(** [getAndAdvance]: [return *data++;] *)
Definition getAndAdvance (h : gmap Z Z) (this : CharPointer_UTF32)
  : option (Z * CharPointer_UTF32) :=
  c ← load h (data this); Some (c, incr this).

(** [operator+] and [operator-] *)
Definition plus (this : CharPointer_UTF32) (numToSkip : Z) : CharPointer_UTF32 :=
  mkCharPointer_UTF32 (data this + numToSkip).
Definition minus (this : CharPointer_UTF32) (numToSkip : Z) : CharPointer_UTF32 :=
  mkCharPointer_UTF32 (data this - numToSkip).

(** [operator[]] read as an rvalue: [data [characterIndex]] *)
Definition index (h : gmap Z Z) (this : CharPointer_UTF32) (characterIndex : Z)
  : option Z :=
  load h (data this + characterIndex).

(** [write]: [*data++ = charToWrite;] *)
Definition write (h : gmap Z Z) (this : CharPointer_UTF32) (charToWrite : Z)
  : option (CharPointer_UTF32 * gmap Z Z) :=
  h' ← store h (data this) charToWrite; Some (incr this, h').

(** [replaceChar]: [*data = newChar;] *)
Definition replaceChar (h : gmap Z Z) (this : CharPointer_UTF32) (newChar : Z)
  : option (gmap Z Z) :=
  store h (data this) newChar.

(** [writeNull]: [*data = 0;]  The method is [const]: the cursor is not
    touched, so only the memory is returned. *)
Definition writeNull (h : gmap Z Z) (this : CharPointer_UTF32)
  : option (gmap Z Z) :=
  store h (data this) 0.

(** postfix [operator++]:
    [CharPointer_UTF32 temp ( *this); ++*this; return temp;]
    The result is the returned copy and the new state of this cursor. *)
Definition post_incr (this : CharPointer_UTF32)
  : CharPointer_UTF32 * CharPointer_UTF32 :=
  let temp := this in (temp, incr this).

(** [operator+=]: [data += numToSkip;] and [operator-=]: [data -= numToSkip;] *)
Definition add_assign (this : CharPointer_UTF32) (numToSkip : Z)
  : CharPointer_UTF32 :=
  mkCharPointer_UTF32 (data this + numToSkip).
Definition sub_assign (this : CharPointer_UTF32) (numToSkip : Z)
  : CharPointer_UTF32 :=
  mkCharPointer_UTF32 (data this - numToSkip).

(** ** The interface shared by the cursor types

    The templates of the class take any cursor type [CharPointer]; they use
    its [getAndAdvance] and its [length]. *)
Class CharPointer (T : Type) : Type := {
  cp_getAndAdvance : gmap Z Z → T → option (Z * T);
  cp_length : gmap Z Z → T → option Z
}.

Module CharacterFunctions.

(** Modelled from the spec: [CharacterFunctions::lengthUpTo] is not part of
    the source file.  The spec has it count the characters strictly before
    the terminator, capped at [max], the scan stopping early once the cap
    is reached even if the terminator has not appeared; the count is a
    [size_t] and the traversal primitive is [getAndAdvance]. *)
Fixpoint lengthUpTo_loop {T : Type} `{CharPointer T} (fuel : nat)
    (h : gmap Z Z) (text : T) (len maxCharsToCount : Z) : option Z :=
  match fuel with
  | O => None
  | S fuel' =>
      if len <? maxCharsToCount then
        '(c, text') ← cp_getAndAdvance h text;
        if c =? 0 then Some len
        else lengthUpTo_loop fuel' h text' (to_size_t (len + 1)) maxCharsToCount
      else Some len
  end.

Definition lengthUpTo {T : Type} `{CharPointer T} (h : gmap Z Z) (text : T)
    (maxCharsToCount : Z) : option Z :=
  lengthUpTo_loop (S (size h)) h text 0 maxCharsToCount.

End CharacterFunctions.

(** Modelled from the spec: [wcscmp] belongs to the C library, not to the
    source file.  The spec has the comparison go character by character in
    code-point order and return the signed difference of the first differing
    characters, or 0 if both strings reach their terminator together. *)
Fixpoint wcscmp_loop (fuel : nat) (h : gmap Z Z) (s1 s2 : Z) : option Z :=
  match fuel with
  | O => None
  | S fuel' =>
      c1 ← load h s1;
      c2 ← load h s2;
      if c1 =? c2 then
        if c1 =? 0 then Some 0 else wcscmp_loop fuel' h (s1 + 1) (s2 + 1)
      else Some (c1 - c2)
  end.

Definition wcscmp (h : gmap Z Z) (s1 s2 : Z) : option Z :=
  wcscmp_loop (S (size h)) h s1 s2.

(** ** Methods that scan or copy

    A loop of the source is a recursion on a fuel count.  Every iteration
    reads one more mapped address, so the fuel [S (size h)] is never the
    reason a scan of a well-formed string stops (lemma [cstring_size]). *)

(** [length], the [JUCE_NATIVE_WCHAR_IS_NOT_UTF32] branch:
    [size_t n = 0; while (data[n] != 0) ++n; return n;]
    ([wcslen] in the other branch has the same contract.) *)
Fixpoint length_loop (fuel : nat) (h : gmap Z Z) (data n : Z) : option Z :=
  match fuel with
  | O => None
  | S fuel' =>
      c ← load h (data + n);
      if c =? 0 then Some n else length_loop fuel' h data (to_size_t (n + 1))
  end.

Definition length (h : gmap Z Z) (this : CharPointer_UTF32) : option Z :=
  length_loop (S (size h)) h (data this) 0.

#[export] Instance CharPointer_UTF32_CharPointer : CharPointer CharPointer_UTF32 :=
  {| cp_getAndAdvance := getAndAdvance; cp_length := length |}.

(** [lengthUpTo]: [return CharacterFunctions::lengthUpTo ( *this, maxCharsToCount);] *)
Definition lengthUpTo (h : gmap Z Z) (this : CharPointer_UTF32)
    (maxCharsToCount : Z) : option Z :=
  CharacterFunctions.lengthUpTo h this maxCharsToCount.

(** [sizeInBytes]: [return sizeof (CharType) * (length() + 1);] in [size_t]. *)
Definition sizeInBytes (h : gmap Z Z) (this : CharPointer_UTF32) : option Z :=
  n ← length h this;
  Some (to_size_t (sizeof_CharType * to_size_t (n + 1))).

(** [getBytesRequiredFor (const juce_wchar)]: [return sizeof (CharType);] *)
Definition getBytesRequiredFor_char (c : Z) : Z := sizeof_CharType.

(** [getBytesRequiredFor (const CharPointer& text)]:
    [return sizeof (CharType) * text.length();] in [size_t]. *)
Definition getBytesRequiredFor {T : Type} `{CharPointer T} (h : gmap Z Z)
    (text : T) : option Z :=
  n ← cp_length h text;
  Some (to_size_t (sizeof_CharType * n)).

(** [findTerminatingNull]: [return CharPointer_UTF32 (data + length());] *)
Definition findTerminatingNull (h : gmap Z Z) (this : CharPointer_UTF32)
  : option CharPointer_UTF32 :=
  n ← length h this;
  Some (mkCharPointer_UTF32 (data this + n)).

(** [writeAll (const CharPointer_UTF32& src)]:
    [const CharType* s = src.data;
     while (( *data = *s) != 0) { ++data; ++s; }] *)
Fixpoint writeAll_loop (fuel : nat) (h : gmap Z Z) (data s : Z)
  : option (CharPointer_UTF32 * gmap Z Z) :=
  match fuel with
  | O => None
  | S fuel' =>
      c ← load h s;
      h' ← store h data c;
      if c =? 0 then Some (mkCharPointer_UTF32 data, h')
      else writeAll_loop fuel' h' (data + 1) (s + 1)
  end.

Definition writeAll (h : gmap Z Z) (this src : CharPointer_UTF32)
  : option (CharPointer_UTF32 * gmap Z Z) :=
  writeAll_loop (S (size h)) h (data this) (data src).

(** [compare (const CharPointer_UTF32& other)]:
    [return wcscmp (data, other.data);] *)
Definition compare (h : gmap Z Z) (this other : CharPointer_UTF32) : option Z :=
  wcscmp h (data this) (data other).

(** [indexOf (const juce_wchar charToFind)]:
    [int i = 0;
     while (data[i] != 0) { if (data[i] == charToFind) return i; ++i; }
     return -1;] *)
Fixpoint indexOf_loop (fuel : nat) (h : gmap Z Z) (data charToFind i : Z)
  : option Z :=
  match fuel with
  | O => None
  | S fuel' =>
      c ← load h (data + i);
      if c =? 0 then Some (-1)
      else if c =? charToFind then Some i
      else if i <? INT_MAX then indexOf_loop fuel' h data charToFind (i + 1)
      else None
  end.

Definition indexOf (h : gmap Z Z) (this : CharPointer_UTF32) (charToFind : Z)
  : option Z :=
  indexOf_loop (S (size h)) h (data this) charToFind 0.

(** ** Well-formed strings and buffers *)

(** [cstring h p s]: the units of [s], none of them zero, are stored from
    address [p] on and are followed by the zero terminator. *)
Fixpoint cstring (h : gmap Z Z) (p : Z) (s : list Z) : Prop :=
  match s with
  | [] => load h p = Some 0
  | c :: s' => c ≠ 0 ∧ load h p = Some c ∧ cstring h (p + 1) s'
  end.

(** [buffer h p n]: the [n] units from address [p] on can be written. *)
Fixpoint buffer (h : gmap Z Z) (p : Z) (n : nat) : Prop :=
  match n with
  | O => True
  | S n' => is_Some (load h p) ∧ buffer h (p + 1) n'
  end.

(** The number of characters of [s], as an integer. *)
Definition strlen (s : list Z) : Z := Z.of_nat (List.length s).
Global Arguments strlen : simpl never.

(** Two regions of [n] units each that share no address. *)
Definition disjoint (p q n : Z) : Prop := p + n ≤ q ∨ q + n ≤ p.

(** The memory after the units of [s] and a terminator have been stored from
    address [p] on. *)
Fixpoint poke (h : gmap Z Z) (p : Z) (s : list Z) : gmap Z Z :=
  match s with
  | [] => <[p := 0]> h
  | c :: s' => poke (<[p := c]> h) (p + 1) s'
  end.

(** The offset of the first unit of [s] equal to [c], or the sentinel. *)
Definition first_index (c : Z) (s : list Z) : Z :=
  match list_find (λ u, u = c) s with
  | Some (i, _) => Z.of_nat i
  | None => -1
  end.

(** Modelled from the spec: [Atomic<T>::exchange] is not part of the source
    file.  The spec has it exchange the stored pointer for a new one and
    return the previous one; the result here is the returned value and the
    new content of the storage slot. *)
Definition Atomic_exchange (slot newValue : Z) : Z * Z := (slot, newValue).

(** [atomicSwap]:
    [return CharPointer_UTF32 (reinterpret_cast <Atomic<CharType*>&> (data)
                                 .exchange (newValue.data));]
    The result is the returned cursor and the new state of this cursor. *)
Definition atomicSwap (this newValue : CharPointer_UTF32)
  : CharPointer_UTF32 * CharPointer_UTF32 :=
  let '(old, slot) := Atomic_exchange (data this) (data newValue) in
  (mkCharPointer_UTF32 old, mkCharPointer_UTF32 slot).

(** The spec's reading of the copy: the units of [s] arrive in the
    destination, and the unit where a terminator would go keeps the value
    it had. *)
Definition copies_without_terminator (h : gmap Z Z)
    (dest src : CharPointer_UTF32) (s : list Z) : Prop :=
  ∃ p' h', writeAll h dest src = Some (p', h')
    ∧ (∀ i c, s !! i = Some c → load h' (data dest + Z.of_nat i) = Some c)
    ∧ load h' (data dest + strlen s) = load h (data dest + strlen s).

(** Two regions, of [n] units from [p] and of [m] units from [q], that share
    no address. *)
Definition apart (p n q m : Z) : Prop := p + n ≤ q ∨ q + m ≤ p.

(** ** Sample memory: the string "AB" at address 1, a scratch buffer of three
    units holding 7 at address 10. *)
Definition sample_heap : gmap Z Z :=
  list_to_map [(1, 65); (2, 66); (3, 0); (10, 7); (11, 7); (12, 7)].
Definition sample_src : CharPointer_UTF32 := mkCharPointer_UTF32 1.
Definition sample_dest : CharPointer_UTF32 := mkCharPointer_UTF32 10.
Definition sample_text : list Z := [65; 66].

(** A second sample memory: "AB" at address 1 with a spare unit after its
    terminator, "C" at address 5, a scratch buffer of five units at
    address 10. *)
Definition sample_wide : gmap Z Z :=
  list_to_map [(1, 65); (2, 66); (3, 0); (4, 9); (5, 67); (6, 0);
               (10, 7); (11, 7); (12, 7); (13, 7); (14, 7)].
Definition sample_src2 : CharPointer_UTF32 := mkCharPointer_UTF32 5.
Definition sample_text2 : list Z := [67].

(** ** A string longer than an [int] can count: [run_heap n] maps [n] units
    holding 1 from address 1 on, and their terminator; the long string has
    2^31 of them. *)
Definition long_len : nat := Z.to_nat (2 ^ 31).
Definition long_text : list Z := replicate long_len 1.
Definition run_heap (n : nat) : gmap Z Z :=
  <[Z.of_nat n + 1 := 0]>
    (gset_to_gmap 1 (list_to_set (seqZ 1 (Z.of_nat n)) : gset Z)).
Definition long_heap : gmap Z Z := run_heap long_len.
Definition long_src : CharPointer_UTF32 := mkCharPointer_UTF32 1.

(** The spec's reading of the search: on every well-formed string the
    result is the offset of the first unit equal to the target, or -1 if
    there is none before the terminator. *)
Definition finds_or_sentinel (h : gmap Z Z) (this : CharPointer_UTF32)
    (charToFind : Z) (s : list Z) : Prop :=
  cstring h (data this) s →
  ∃ r, indexOf h this charToFind = Some r
    ∧ ((r = -1 ∧ charToFind ∉ s)
       ∨ (∃ i : nat, r = Z.of_nat i ∧ s !! i = Some charToFind
            ∧ ∀ j, (j < i)%nat → s !! j ≠ Some charToFind)).

(** * Properties *)

(** ** Memory *)

Lemma load_Some (h : gmap Z Z) a v :
  load h a = Some v ↔ valid_addr a = true ∧ h !! a = Some v.
Proof.
  unfold load. destruct (valid_addr a); split; try done.
  - by intros [_ ?].
  - by intros [? _].
Qed.

Lemma valid_addr_spec a :
  valid_addr a = true ↔ 0 < a ∧ sizeof_CharType * (a + 1) ≤ size_t_modulus.
Proof. unfold valid_addr. rewrite andb_true_iff, Z.ltb_lt, Z.leb_le. done. Qed.

Lemma store_Some (h : gmap Z Z) a v :
  is_Some (load h a) → store h a v = Some (<[a := v]> h).
Proof.
  intros [u [Hv Hu]%load_Some]. unfold store. by rewrite Hv, Hu.
Qed.

Lemma load_insert_eq (h : gmap Z Z) a v :
  valid_addr a = true → load (<[a := v]> h) a = Some v.
Proof. intros Hv. unfold load. by rewrite Hv, lookup_insert_eq. Qed.

(** ** Well-formed strings *)

Lemma strlen_nil : strlen [] = 0.
Proof. done. Qed.

Lemma strlen_cons c s : strlen (c :: s) = strlen s + 1.
Proof. unfold strlen. simpl. lia. Qed.

Lemma strlen_nonneg s : 0 ≤ strlen s.
Proof. unfold strlen. lia. Qed.

(** A string only depends on the memory from its first unit on. *)
Lemma cstring_ext (h1 h2 : gmap Z Z) p s :
  (∀ a, p ≤ a ≤ p + strlen s → h1 !! a = h2 !! a) →
  cstring h1 p s → cstring h2 p s.
Proof.
  revert p. induction s as [|c s IH]; intros p Hagree; simpl.
  - unfold load. rewrite strlen_nil in Hagree.
    by rewrite (Hagree p) by lia.
  - rewrite strlen_cons in Hagree. pose proof (strlen_nonneg s).
    intros (Hc & Hp & Hs). split; [done|]. split.
    + unfold load in *. by rewrite <- (Hagree p) by lia.
    + apply IH; [|done]. intros a Ha. apply Hagree. lia.
Qed.

(** The unit at offset [i] of a string, and its terminator. *)
Lemma cstring_lookup (h : gmap Z Z) p s i c :
  cstring h p s → s !! i = Some c → load h (p + Z.of_nat i) = Some c ∧ c ≠ 0.
Proof.
  revert p i. induction s as [|c' s IH]; intros p i Hs Hi; [done|].
  destruct Hs as (Hc & Hp & Hs). destruct i as [|i]; simpl in Hi.
  - injection Hi as ->. by rewrite Z.add_0_r.
  - replace (p + Z.of_nat (S i)) with (p + 1 + Z.of_nat i) by lia. eauto.
Qed.

Lemma cstring_terminator (h : gmap Z Z) p s :
  cstring h p s → load h (p + strlen s) = Some 0.
Proof.
  revert p. induction s as [|c s IH]; intros p Hs.
  - by rewrite strlen_nil, Z.add_0_r.
  - destruct Hs as (_ & _ & Hs). rewrite strlen_cons.
    replace (p + (strlen s + 1)) with (p + 1 + strlen s) by lia. eauto.
Qed.

(** A string lies inside the address space, so the byte count of its
    units and terminator fits in a [size_t]. *)
Lemma cstring_bounds (h : gmap Z Z) p s :
  cstring h p s →
  0 < p ∧ sizeof_CharType * (p + strlen s + 1) ≤ size_t_modulus.
Proof.
  intros Hs. pose proof (strlen_nonneg s).
  assert (valid_addr (p + strlen s) = true) as [? ?]%valid_addr_spec.
  { apply cstring_terminator in Hs. by apply load_Some in Hs as [? _]. }
  assert (valid_addr p = true) as [? ?]%valid_addr_spec.
  { destruct s; simpl in Hs.
    - by apply load_Some in Hs as [? _].
    - destruct Hs as (_ & Hs & _). by apply load_Some in Hs as [? _]. }
  split; [done | lia].
Qed.

(** A string of [n] characters occupies [n + 1] mapped addresses. *)
Lemma cstring_size (h : gmap Z Z) p s :
  cstring h p s → (List.length s < size h)%nat.
Proof.
  revert h p. induction s as [|c s IH]; intros h p Hs; simpl in *.
  - apply load_Some in Hs as [_ Hs].
    destruct (decide (size h = 0%nat)) as [Hz|]; [|lia].
    apply map_size_empty_inv in Hz. subst h. by rewrite lookup_empty in Hs.
  - destruct Hs as (_ & [_ Hp]%load_Some & Hs).
    assert (cstring (delete p h) (p + 1) s) as Hs'%IH.
    { eapply cstring_ext; [|done]. intros a Ha.
      symmetry. apply lookup_delete_ne. lia. }
    rewrite <- (insert_delete_id h p c Hp).
    rewrite map_size_insert_None by apply lookup_delete_eq. lia.
Qed.

(** ** Scans *)

(** Every loop lemma starts the same way: the fuel bound rules out the
    empty fuel, and the loop body is unfolded once. *)
Ltac spend_fuel fuel Hfuel :=
  destruct fuel as [|fuel]; [simpl in Hfuel; lia|]; simpl.

Lemma to_size_t_id z : 0 ≤ z < size_t_modulus → to_size_t z = z.
Proof. intros Hz. unfold to_size_t. by apply Z.mod_small. Qed.

Lemma length_loop_cstring (h : gmap Z Z) d s : ∀ fuel n,
  0 < d → 0 ≤ n → cstring h (d + n) s → (List.length s < fuel)%nat →
  length_loop fuel h d n = Some (n + strlen s).
Proof.
  induction s as [|c s IH]; intros fuel n Hd Hn Hs Hfuel;
    spend_fuel fuel Hfuel.
  - simpl in Hs. rewrite Hs. simpl. by rewrite strlen_nil, Z.add_0_r.
  - pose proof (cstring_bounds _ _ _ Hs) as [_ Hb].
    destruct Hs as (Hc & Hp & Hs). rewrite Hp. simpl.
    apply Z.eqb_neq in Hc. rewrite Hc.
    rewrite strlen_cons in *. pose proof (strlen_nonneg s).
    unfold sizeof_CharType in Hb.
    rewrite to_size_t_id by lia.
    rewrite IH; [f_equal; lia | done | lia | | simpl in Hfuel; lia].
    by replace (d + (n + 1)) with (d + n + 1) by lia.
Qed.

Lemma length_cstring (h : gmap Z Z) this s :
  cstring h (data this) s → length h this = Some (strlen s).
Proof.
  intros Hs. unfold length.
  pose proof (cstring_bounds _ _ _ Hs) as [Hd _].
  pose proof (cstring_size _ _ _ Hs).
  rewrite (length_loop_cstring h (data this) s); [done | done | done | | lia].
  by rewrite Z.add_0_r.
Qed.

(** The fuel of [length] never runs out: consecutive mapped addresses are
    at most [size h] many, so a scan that returns nothing has read an
    address that cannot be read. *)
Lemma mapped_run_size (h : gmap Z Z) d (k : nat) :
  (∀ i, 0 ≤ i < Z.of_nat k → is_Some (h !! (d + i))) → (k ≤ size h)%nat.
Proof.
  revert h d. induction k as [|k IH]; intros h d Hrun; [lia|].
  destruct (Hrun 0) as [v Hv]; [lia|]. rewrite Z.add_0_r in Hv.
  assert (k ≤ size (delete d h))%nat as Hk.
  { apply (IH _ (d + 1)). intros i Hi.
    rewrite lookup_delete_ne by lia.
    replace (d + 1 + i) with (d + (i + 1)) by lia. apply Hrun. lia. }
  rewrite <- (insert_delete_id h d v Hv).
  rewrite map_size_insert_None by apply lookup_delete_eq. lia.
Qed.

Lemma length_loop_starved (h : gmap Z Z) d : ∀ fuel n,
  0 < d → 0 ≤ n → length_loop fuel h d n = None →
  (∃ m, n ≤ m ∧ load h (d + m) = None)
  ∨ (∀ i, n ≤ i < n + Z.of_nat fuel → is_Some (load h (d + i))).
Proof.
  induction fuel as [|fuel IH]; intros n Hd Hn Hloop.
  - right. intros i Hi. lia.
  - simpl in Hloop. destruct (load h (d + n)) as [c|] eqn:Hc; simpl in Hloop.
    + destruct (c =? 0); [done|].
      apply load_Some in Hc as Hc'. destruct Hc' as [[_ Hb]%valid_addr_spec _].
      unfold sizeof_CharType in Hb.
      rewrite to_size_t_id in Hloop by lia.
      destruct (IH (n + 1)) as [(m & Hm & Hnone)|Hrun]; [done | lia | done | |].
      * left. exists m. split; [lia | done].
      * right. intros i Hi. destruct (decide (i = n)) as [->|Hne]; [eauto|].
        apply Hrun. lia.
    + left. exists n. split; [lia | done].
Qed.

Lemma length_undefined (h : gmap Z Z) this :
  length h this = None → ∃ m, 0 ≤ m ∧ load h (data this + m) = None.
Proof.
  intros Hnone. destruct (decide (0 < data this)) as [Hd|Hd].
  - destruct (length_loop_starved h (data this) _ 0 Hd (Z.le_refl 0) Hnone)
      as [(m & Hm & Hload)|Hrun]; [eauto|].
    assert (S (size h) ≤ size h)%nat; [|lia].
    apply (mapped_run_size h (data this)). intros i Hi.
    destruct (Hrun i) as [v [_ Hv]%load_Some]; [lia | eauto].
  - exists 0. split; [done|]. unfold load.
    replace (valid_addr (data this + 0)) with false; [done|].
    symmetry. apply not_true_is_false. rewrite valid_addr_spec. lia.
Qed.

Lemma lengthUpTo_loop_cstring (h : gmap Z Z) s : ∀ fuel this len k,
  0 ≤ len → len + strlen s < size_t_modulus →
  cstring h (data this) s → (List.length s < fuel)%nat →
  CharacterFunctions.lengthUpTo_loop fuel h this len k
  = Some (Z.min (len + strlen s) (Z.max len k)).
Proof.
  induction s as [|c s IH]; intros fuel this len k Hlen Hb Hs Hfuel;
    spend_fuel fuel Hfuel; destruct (Z.ltb_spec len k) as [Hlt|Hge].
  - simpl in Hs. unfold getAndAdvance. rewrite Hs. simpl.
    rewrite strlen_nil. f_equal. lia.
  - rewrite strlen_nil. f_equal. lia.
  - destruct Hs as (Hc & Hp & Hs). unfold getAndAdvance. rewrite Hp. simpl.
    apply Z.eqb_neq in Hc. rewrite Hc.
    rewrite strlen_cons in *. pose proof (strlen_nonneg s).
    rewrite to_size_t_id by lia.
    rewrite IH; [f_equal; lia | lia | lia | done | simpl in Hfuel; lia].
  - rewrite strlen_cons. pose proof (strlen_nonneg s). f_equal. lia.
Qed.

Lemma lengthUpTo_cstring (h : gmap Z Z) this s k :
  cstring h (data this) s → 0 ≤ k →
  lengthUpTo h this k = Some (Z.min (strlen s) k).
Proof.
  intros Hs Hk. unfold lengthUpTo, CharacterFunctions.lengthUpTo.
  pose proof (cstring_bounds _ _ _ Hs) as [Hd Hb].
  pose proof (cstring_size _ _ _ Hs). pose proof (strlen_nonneg s).
  unfold sizeof_CharType in Hb.
  rewrite (lengthUpTo_loop_cstring h s); [f_equal; lia | done | lia | done | lia].
Qed.

Lemma first_index_cons c u s :
  first_index c (u :: s)
  = if decide (u = c) then 0
    else if decide (first_index c s = -1) then -1 else first_index c s + 1.
Proof.
  unfold first_index. simpl. destruct (decide (u = c)); [done|].
  destruct (list_find _ s) as [[i v]|]; simpl.
  - destruct (decide _); lia.
  - done.
Qed.

Lemma first_index_range c s : -1 ≤ first_index c s < strlen s.
Proof.
  induction s as [|u s IH].
  - by cbv.
  - rewrite first_index_cons, strlen_cons.
    repeat destruct (decide _); lia.
Qed.

Lemma indexOf_loop_cstring (h : gmap Z Z) d c s : ∀ fuel i,
  0 < d → 0 ≤ i → i + strlen s ≤ INT_MAX →
  cstring h (d + i) s → (List.length s < fuel)%nat →
  indexOf_loop fuel h d c i
  = Some (if decide (first_index c s = -1) then -1 else i + first_index c s).
Proof.
  induction s as [|u s IH]; intros fuel i Hd Hi Hmax Hs Hfuel;
    spend_fuel fuel Hfuel.
  - simpl in Hs. rewrite Hs. done.
  - destruct Hs as (Hu & Hp & Hs). rewrite Hp. simpl.
    pose proof Hu as Hu'. apply Z.eqb_neq in Hu'. rewrite Hu'.
    rewrite first_index_cons. rewrite strlen_cons in Hmax.
    pose proof (strlen_nonneg s). pose proof (first_index_range c s).
    destruct (decide (u = c)) as [->|Hne].
    + rewrite Z.eqb_refl. destruct (decide (0 = -1)); [lia | f_equal; lia].
    + apply Z.eqb_neq in Hne. rewrite Hne.
      destruct (Z.ltb_spec i INT_MAX) as [Hlt|Hge]; [|lia].
      rewrite IH; [| done | lia | lia | | simpl in Hfuel; lia].
      * repeat destruct (decide _); f_equal; lia.
      * by replace (d + (i + 1)) with (d + i + 1) by lia.
Qed.

(** ** Copies *)

Lemma cstring_nonzero (h : gmap Z Z) p s : cstring h p s → Forall (λ c, c ≠ 0) s.
Proof.
  revert p. induction s as [|c s IH]; intros p Hs; [constructor|].
  destruct Hs as (Hc & _ & Hs). constructor; eauto.
Qed.

Lemma buffer_insert (h : gmap Z Z) p n a v :
  buffer h p n → buffer (<[a := v]> h) p n.
Proof.
  revert p. induction n as [|n IH]; intros p Hb; [done|].
  destruct Hb as [[u [Hv Hu]%load_Some] Hb]. split; [|by apply IH].
  unfold load. rewrite Hv. destruct (decide (a = p)) as [->|Hne].
  - rewrite lookup_insert_eq. eauto.
  - rewrite lookup_insert_ne by done. eauto.
Qed.

(** [poke] changes the units it stores and nothing else. *)
Lemma poke_frame (h : gmap Z Z) p s a :
  ¬ (p ≤ a ≤ p + strlen s) → poke h p s !! a = h !! a.
Proof.
  revert h p. induction s as [|c s IH]; intros h p Ha; simpl.
  - rewrite strlen_nil in Ha. apply lookup_insert_ne. lia.
  - rewrite strlen_cons in Ha. pose proof (strlen_nonneg s).
    rewrite IH by lia. apply lookup_insert_ne. lia.
Qed.

Lemma poke_cstring (h : gmap Z Z) p s :
  Forall (λ c, c ≠ 0) s → buffer h p (S (List.length s)) →
  cstring (poke h p s) p s.
Proof.
  revert h p. induction s as [|c s IH]; intros h p Hnz Hb; simpl.
  - destruct Hb as [[u [Hv _]%load_Some] _]. by apply load_insert_eq.
  - apply Forall_cons in Hnz as [Hc Hnz].
    destruct Hb as [[u [Hv _]%load_Some] Hb].
    split; [done|]. split.
    + unfold load. rewrite Hv, poke_frame by lia. apply lookup_insert_eq.
    + apply IH; [done|]. by apply buffer_insert.
Qed.

Lemma writeAll_loop_cstring s : ∀ fuel (h : gmap Z Z) d p,
  cstring h p s → buffer h d (S (List.length s)) →
  disjoint d p (strlen s + 1) → (List.length s < fuel)%nat →
  writeAll_loop fuel h d p
  = Some (mkCharPointer_UTF32 (d + strlen s), poke h d s).
Proof.
  induction s as [|c s IH]; intros fuel h d p Hs Hb Hdisj Hfuel;
    spend_fuel fuel Hfuel.
  - simpl in Hs. destruct Hb as [Hd _]. rewrite Hs. simpl.
    rewrite (store_Some _ _ _ Hd). simpl.
    by rewrite strlen_nil, Z.add_0_r.
  - destruct Hs as (Hc & Hp & Hs). destruct Hb as [Hd Hb].
    rewrite Hp. simpl. rewrite (store_Some _ _ _ Hd). simpl.
    apply Z.eqb_neq in Hc. rewrite Hc.
    rewrite strlen_cons in *. pose proof (strlen_nonneg s).
    unfold disjoint in Hdisj.
    rewrite IH.
    + do 3 f_equal. lia.
    + eapply cstring_ext; [|done]. intros a Ha.
      symmetry. apply lookup_insert_ne. lia.
    + by apply buffer_insert.
    + unfold disjoint. lia.
    + simpl in Hfuel. lia.
Qed.

Lemma wcscmp_loop_same (h : gmap Z Z) s : ∀ fuel a b,
  cstring h a s → cstring h b s → (List.length s < fuel)%nat →
  wcscmp_loop fuel h a b = Some 0.
Proof.
  induction s as [|c s IH]; intros fuel a b Ha Hb Hfuel;
    spend_fuel fuel Hfuel.
  - simpl in Ha, Hb. by rewrite Ha, Hb.
  - destruct Ha as (Hc & Ha & Hsa). destruct Hb as (_ & Hb & Hsb).
    rewrite Ha, Hb. simpl. rewrite Z.eqb_refl.
    apply Z.eqb_neq in Hc. rewrite Hc.
    apply IH; [done | done | simpl in Hfuel; lia].
Qed.

(** What [writeAll] does to a well-formed source and a separate buffer. *)
Lemma writeAll_cstring (h : gmap Z Z) this src s :
  cstring h (data src) s → buffer h (data this) (S (List.length s)) →
  disjoint (data this) (data src) (strlen s + 1) →
  writeAll h this src
  = Some (plus this (strlen s), poke h (data this) s).
Proof.
  intros Hs Hb Hdisj. unfold writeAll, plus.
  pose proof (cstring_size _ _ _ Hs).
  apply writeAll_loop_cstring; [done | done | done | lia].
Qed.

Lemma first_index_spec c s :
  (first_index c s = -1 ∧ c ∉ s)
  ∨ (∃ i : nat, first_index c s = Z.of_nat i ∧ s !! i = Some c
       ∧ ∀ j, (j < i)%nat → s !! j ≠ Some c).
Proof.
  unfold first_index.
  destruct (list_find (λ u, u = c) s) as [[i u]|] eqn:Hfind.
  - apply list_find_Some in Hfind as (Hi & -> & Hbefore).
    right. exists i. split; [done|]. split; [done|].
    intros j Hj Hjc. by apply (Hbefore j c).
  - apply list_find_None in Hfind. left. split; [done|].
    intros Hin. rewrite Forall_forall in Hfind. by apply (Hfind c).
Qed.

(** The effect of [writeAll] on the memory, shared by the copy claims. *)
Lemma writeAll_effect (h : gmap Z Z) this src s :
  cstring h (data src) s →
  buffer h (data this) (S (List.length s)) →
  disjoint (data this) (data src) (strlen s + 1) →
  ∃ h', writeAll h this src = Some (plus this (strlen s), h')
    ∧ cstring h' (data this) s
    ∧ deref h' (plus this (strlen s)) = Some 0
    ∧ ∀ a, ¬ (data this ≤ a ≤ data this + strlen s) → h' !! a = h !! a.
Proof.
  intros Hs Hb Hdisj. exists (poke h (data this) s).
  assert (cstring (poke h (data this) s) (data this) s) as Hcopy.
  { apply poke_cstring; [by eapply cstring_nonzero | done]. }
  split; [by apply writeAll_cstring|]. split; [done|]. split.
  - by apply cstring_terminator.
  - intros a Ha. by apply poke_frame.
Qed.

(** X16: for a source in this same encoding the byte count of the string
    variant of [getBytesRequiredFor] needs no side condition, and
    [sizeInBytes] is that count plus the bytes [getBytesRequiredFor] gives
    for one character, the terminator. *)
Lemma getBytesRequiredFor_cstring (h : gmap Z Z) (text : CharPointer_UTF32) s :
  cstring h (data text) s →
  getBytesRequiredFor h text = Some (strlen s * sizeof_CharType)
  ∧ sizeInBytes h text
    = Some (strlen s * sizeof_CharType + getBytesRequiredFor_char 0).
Proof.
  intros Hs. unfold getBytesRequiredFor, sizeInBytes. simpl.
  rewrite (length_cstring _ _ _ Hs). simpl.
  pose proof (cstring_bounds _ _ _ Hs) as [Hd Hb].
  pose proof (strlen_nonneg s).
  unfold getBytesRequiredFor_char, sizeof_CharType in *.
  rewrite (to_size_t_id (strlen s + 1)) by lia.
  rewrite !to_size_t_id by lia. split; f_equal; lia.
Qed.

(** ** The methods on the sample memory *)

Example sample_length : length sample_heap sample_src = Some 2.
Proof. reflexivity. Qed.

Example sample_lengthUpTo :
  lengthUpTo sample_heap sample_src 1 = Some 1
  ∧ lengthUpTo sample_heap sample_src 5 = Some 2.
Proof. split; reflexivity. Qed.

Example sample_indexOf :
  indexOf sample_heap sample_src 65 = Some 0
  ∧ indexOf sample_heap sample_src 66 = Some 1
  ∧ indexOf sample_heap sample_src 67 = Some (-1)
  ∧ indexOf sample_heap sample_src 0 = Some (-1).
Proof. repeat split; reflexivity. Qed.

Example sample_compare :
  compare sample_heap sample_src sample_src = Some 0
  ∧ compare sample_heap sample_src sample_dest = Some 58.
Proof. split; reflexivity. Qed.

(** Reading past the mapped units is undefined: the scratch buffer holds no
    terminator. *)
Example sample_length_undefined : length sample_heap sample_dest = None.
Proof. reflexivity. Qed.

(** [writeAll] on the sample: the cursor ends at address 12 and the three
    units at 10, 11, 12 hold 'A', 'B' and the terminator. *)
Example sample_writeAll :
  writeAll sample_heap sample_dest sample_src
  = Some (mkCharPointer_UTF32 12,
          <[12 := 0]> (<[11 := 66]> (<[10 := 65]> sample_heap))).
Proof. reflexivity. Qed.

(** * The claims *)

(** C1, as the source has it: for a well-formed source string and a separate
    destination buffer with room for the string and its terminator,
    [writeAll] copies the characters of the source and also its zero
    terminator; the destination cursor ends on the terminator it has
    written, [strlen s] units after its start, and no unit outside the
    destination region changes. *)
Theorem writeAll_copies_with_terminator (h : gmap Z Z) this src s :
  cstring h (data src) s →
  buffer h (data this) (S (List.length s)) →
  disjoint (data this) (data src) (strlen s + 1) →
  ∃ h', writeAll h this src = Some (plus this (strlen s), h')
    ∧ cstring h' (data this) s
    ∧ deref h' (plus this (strlen s)) = Some 0
    ∧ ∀ a, ¬ (data this ≤ a ≤ data this + strlen s) → h' !! a = h !! a.
Proof. apply writeAll_effect. Qed.

(** C1, as the spec words it, fails on the sample memory: the unit after
    the two copied characters held 7 and holds the terminator afterwards. *)
Lemma writeAll_sample_writes_terminator :
  ¬ copies_without_terminator sample_heap sample_dest sample_src sample_text.
Proof.
  intros (p' & h' & Hw & _ & Hterm).
  vm_compute in Hw. injection Hw as <- <-.
  vm_compute in Hterm. discriminate Hterm.
Qed.

(** C2: [operator!=] returns the same boolean as [operator==], namely
    whether the two wrapped addresses are equal; it is therefore never the
    negation of [operator==]. *)
Theorem operator_ne_same_as_eq (a b : CharPointer_UTF32) :
  operator_ne a b = operator_eq a b
  ∧ operator_ne a b = bool_decide (data a = data b)
  ∧ operator_ne a b ≠ negb (operator_eq a b).
Proof.
  unfold operator_ne, operator_eq. split; [done|]. split.
  - destruct (Z.eqb_spec (data a) (data b)) as [Heq|Hne].
    + by rewrite bool_decide_eq_true_2.
    + by rewrite bool_decide_eq_false_2.
  - by destruct (data a =? data b).
Qed.

(** C3: round trip.  For a well-formed source string and a separate
    destination buffer with room for it, [writeAll] followed by [writeNull]
    on the destination cursor leaves the destination holding the characters
    of the source, the source intact, and [compare] of the two returns 0. *)
Theorem writeAll_writeNull_roundtrip (h : gmap Z Z) dest src s :
  cstring h (data src) s →
  buffer h (data dest) (S (List.length s)) →
  disjoint (data dest) (data src) (strlen s + 1) →
  ∃ dest' h1 h2,
    writeAll h dest src = Some (dest', h1)
    ∧ writeNull h1 dest' = Some h2
    ∧ cstring h2 (data dest) s
    ∧ cstring h2 (data src) s
    ∧ compare h2 dest src = Some 0.
Proof.
  intros Hs Hb Hdisj.
  destruct (writeAll_effect h dest src s Hs Hb Hdisj)
    as (h1 & Hw & Hcopy & Hterm & Hframe).
  assert (writeNull h1 (plus dest (strlen s)) = Some h1) as Hnull.
  { unfold writeNull. rewrite store_Some by (unfold deref in Hterm; eauto).
    f_equal. apply insert_id. by apply load_Some in Hterm as [_ ?]. }
  assert (cstring h1 (data src) s) as Hsrc.
  { eapply cstring_ext; [|exact Hs]. intros a Ha. symmetry.
    apply Hframe. unfold disjoint in Hdisj. lia. }
  exists (plus dest (strlen s)), h1, h1. repeat split; try done.
  unfold compare, wcscmp. pose proof (cstring_size _ _ _ Hsrc).
  apply (wcscmp_loop_same h1 s); [done | done | lia].
Qed.

(** C4: for a well-formed string, [sizeInBytes] returns
    [(length() + 1) * sizeof (CharType)], the storage of the string with its
    terminator. *)
Theorem sizeInBytes_cstring (h : gmap Z Z) this s :
  cstring h (data this) s →
  length h this = Some (strlen s)
  ∧ sizeInBytes h this = Some ((strlen s + 1) * sizeof_CharType).
Proof.
  intros Hs. pose proof (length_cstring _ _ _ Hs) as Hlen.
  split; [done|]. unfold sizeInBytes. rewrite Hlen. simpl.
  pose proof (cstring_bounds _ _ _ Hs) as [Hd Hb].
  pose proof (strlen_nonneg s). unfold sizeof_CharType in *.
  rewrite (to_size_t_id (strlen s + 1)) by lia.
  rewrite to_size_t_id by lia. f_equal. lia.
Qed.

(** C5: for a source cursor of any cursor type whose [length()] is [n], the
    string variant of [getBytesRequiredFor] returns
    [n * sizeof (CharType)], provided the product fits in a [size_t]. *)
Theorem getBytesRequiredFor_length {T : Type} `{CharPointer T}
    (h : gmap Z Z) (text : T) n :
  cp_length h text = Some n →
  0 ≤ n * sizeof_CharType < size_t_modulus →
  getBytesRequiredFor h text = Some (n * sizeof_CharType).
Proof.
  intros Hlen Hfit. unfold getBytesRequiredFor. rewrite Hlen. simpl.
  rewrite to_size_t_id by lia. f_equal. lia.
Qed.

(** C6: for a well-formed string, [length] is the number of characters
    before the terminator and equals [lengthUpTo] with a cap one above it;
    for every cap [k], [lengthUpTo] returns the smaller of the length and
    [k], so it never exceeds [k] and stops at the cap. *)
Theorem length_lengthUpTo (h : gmap Z Z) this s k :
  cstring h (data this) s → 0 ≤ k →
  length h this = Some (strlen s)
  ∧ lengthUpTo h this (strlen s + 1) = length h this
  ∧ ∃ n, lengthUpTo h this k = Some n ∧ n ≤ k ∧ n = Z.min (strlen s) k.
Proof.
  intros Hs Hk. pose proof (strlen_nonneg s).
  rewrite (length_cstring _ _ _ Hs). split; [done|]. split.
  - rewrite (lengthUpTo_cstring _ _ _ _ Hs) by lia. f_equal. lia.
  - exists (Z.min (strlen s) k).
    rewrite (lengthUpTo_cstring _ _ _ _ Hs) by lia. split; [done|]. lia.
Qed.

(** C7: for a well-formed string whose length fits in an [int], [indexOf]
    returns the offset of the first unit equal to the target, or -1 if no
    unit before the terminator equals it. *)
Theorem indexOf_first_match (h : gmap Z Z) this charToFind s :
  cstring h (data this) s → strlen s ≤ INT_MAX →
  ∃ r, indexOf h this charToFind = Some r
    ∧ ((r = -1 ∧ charToFind ∉ s)
       ∨ (∃ i : nat, r = Z.of_nat i ∧ s !! i = Some charToFind
            ∧ ∀ j, (j < i)%nat → s !! j ≠ Some charToFind)).
Proof.
  intros Hs Hmax. exists (first_index charToFind s). split.
  - unfold indexOf. pose proof (cstring_bounds _ _ _ Hs) as [Hd _].
    pose proof (cstring_size _ _ _ Hs).
    rewrite (indexOf_loop_cstring h (data this) charToFind s);
      [| done | done | lia | by rewrite Z.add_0_r | lia].
    f_equal. destruct (decide _); lia.
  - apply first_index_spec.
Qed.

(** C8: for a well-formed string, [findTerminatingNull] returns the cursor
    [length()] units after this one, and that cursor reads zero. *)
Theorem findTerminatingNull_cstring (h : gmap Z Z) this s :
  cstring h (data this) s →
  ∃ q, findTerminatingNull h this = Some q
    ∧ length h this = Some (data q - data this)
    ∧ data q - data this = strlen s
    ∧ deref h q = Some 0.
Proof.
  intros Hs. exists (mkCharPointer_UTF32 (data this + strlen s)).
  unfold findTerminatingNull. rewrite (length_cstring _ _ _ Hs). simpl.
  split; [done|]. split; [f_equal; lia|]. split; [lia|].
  by apply cstring_terminator.
Qed.

(** C9: on a writable position, [write] stores the character there and
    leaves the cursor one unit further, at address [data + 1], and
    [writeNull] stores zero there and leaves the cursor alone; each changes
    that one unit only. *)
Theorem write_writeNull_frame (h : gmap Z Z) this c :
  is_Some (load h (data this)) →
  (∃ this' h', write h this c = Some (this', h')
     ∧ data this' = data this + 1
     ∧ load h' (data this) = Some c
     ∧ ∀ a, a ≠ data this → h' !! a = h !! a)
  ∧ (∃ h', writeNull h this = Some h'
       ∧ load h' (data this) = Some 0
       ∧ ∀ a, a ≠ data this → h' !! a = h !! a).
Proof.
  intros Hw. pose proof Hw as [u [Hv _]%load_Some]. split.
  - exists (incr this), (<[data this := c]> h). unfold write.
    rewrite (store_Some _ _ _ Hw). simpl.
    split; [done|]. split; [done|]. split; [by apply load_insert_eq|].
    intros a Ha. by apply lookup_insert_ne.
  - exists (<[data this := 0]> h). unfold writeNull.
    rewrite (store_Some _ _ _ Hw).
    split; [done|]. split; [by apply load_insert_eq|].
    intros a Ha. by apply lookup_insert_ne.
Qed.

(** ** [atomicSwap], read sequentially

    In a sequential run the swap hands back the cursor as it was and leaves
    this cursor on the new buffer; it touches no memory, so a cursor kept
    from before the swap, advanced or not, reads what it read before. *)
Lemma atomicSwap_sequential (h : gmap Z Z) this newValue n :
  atomicSwap this newValue = (this, newValue)
  ∧ deref h (snd (atomicSwap this newValue)) = deref h newValue
  ∧ deref h (plus (fst (atomicSwap this newValue)) n) = deref h (plus this n).
Proof. by destruct this, newValue. Qed.

(** * The claims on the sample memory *)

Lemma sample_cstring : cstring sample_heap (data sample_src) sample_text.
Proof. repeat split; done. Defined.

Lemma sample_buffer :
  buffer sample_heap (data sample_dest) (S (List.length sample_text)).
Proof. repeat split; by eexists. Defined.

Lemma sample_disjoint :
  disjoint (data sample_dest) (data sample_src) (strlen sample_text + 1).
Proof. right. by vm_compute. Defined.

Lemma writeAll_copies_with_terminator_witness :
  ∃ h', writeAll sample_heap sample_dest sample_src
        = Some (plus sample_dest (strlen sample_text), h')
    ∧ cstring h' (data sample_dest) sample_text
    ∧ deref h' (plus sample_dest (strlen sample_text)) = Some 0
    ∧ ∀ a, ¬ (data sample_dest ≤ a ≤ data sample_dest + strlen sample_text) →
           h' !! a = sample_heap !! a.
Proof.
  exact (writeAll_copies_with_terminator sample_heap sample_dest sample_src
           sample_text sample_cstring sample_buffer sample_disjoint).
Defined.

Lemma writeAll_writeNull_roundtrip_witness :
  ∃ dest' h1 h2,
    writeAll sample_heap sample_dest sample_src = Some (dest', h1)
    ∧ writeNull h1 dest' = Some h2
    ∧ cstring h2 (data sample_dest) sample_text
    ∧ cstring h2 (data sample_src) sample_text
    ∧ compare h2 sample_dest sample_src = Some 0.
Proof.
  exact (writeAll_writeNull_roundtrip sample_heap sample_dest sample_src
           sample_text sample_cstring sample_buffer sample_disjoint).
Defined.

Lemma sizeInBytes_cstring_witness :
  length sample_heap sample_src = Some 2
  ∧ sizeInBytes sample_heap sample_src = Some 12.
Proof.
  exact (sizeInBytes_cstring sample_heap sample_src sample_text sample_cstring).
Defined.

Lemma getBytesRequiredFor_length_witness :
  getBytesRequiredFor sample_heap sample_src = Some 8.
Proof.
  apply (getBytesRequiredFor_length sample_heap sample_src 2).
  - reflexivity.
  - by vm_compute.
Defined.

Lemma length_lengthUpTo_witness :
  length sample_heap sample_src = Some 2
  ∧ lengthUpTo sample_heap sample_src 3 = length sample_heap sample_src
  ∧ ∃ n, lengthUpTo sample_heap sample_src 1 = Some n ∧ n ≤ 1
         ∧ n = Z.min 2 1.
Proof.
  apply (length_lengthUpTo sample_heap sample_src sample_text 1).
  - exact sample_cstring.
  - lia.
Defined.

Lemma indexOf_first_match_witness :
  ∃ r, indexOf sample_heap sample_src 66 = Some r
    ∧ ((r = -1 ∧ 66 ∉ sample_text)
       ∨ (∃ i : nat, r = Z.of_nat i ∧ sample_text !! i = Some 66
            ∧ ∀ j, (j < i)%nat → sample_text !! j ≠ Some 66)).
Proof.
  apply (indexOf_first_match sample_heap sample_src 66 sample_text).
  - exact sample_cstring.
  - by vm_compute.
Defined.

Lemma findTerminatingNull_cstring_witness :
  ∃ q, findTerminatingNull sample_heap sample_src = Some q
    ∧ length sample_heap sample_src = Some (data q - data sample_src)
    ∧ data q - data sample_src = strlen sample_text
    ∧ deref sample_heap q = Some 0.
Proof.
  exact (findTerminatingNull_cstring sample_heap sample_src sample_text
           sample_cstring).
Defined.

Lemma write_writeNull_frame_witness :
  (∃ this' h', write sample_heap sample_dest 65 = Some (this', h')
     ∧ data this' = 11
     ∧ load h' (data sample_dest) = Some 65
     ∧ ∀ a, a ≠ data sample_dest → h' !! a = sample_heap !! a)
  ∧ (∃ h', writeNull sample_heap sample_dest = Some h'
       ∧ load h' (data sample_dest) = Some 0
       ∧ ∀ a, a ≠ data sample_dest → h' !! a = sample_heap !! a).
Proof.
  apply (write_writeNull_frame sample_heap sample_dest 65).
  by eexists.
Defined.

(** * Further properties of the cursor *)

(** ** Building and taking apart well-formed strings *)

(** A string is given by its units and its terminator. *)
Lemma cstring_intro (h : gmap Z Z) p s :
  Forall (λ c, c ≠ 0) s →
  (∀ i c, s !! i = Some c → load h (p + Z.of_nat i) = Some c) →
  load h (p + strlen s) = Some 0 →
  cstring h p s.
Proof.
  revert p. induction s as [|c s IH]; intros p Hnz Hunits Hterm; simpl.
  - by rewrite strlen_nil, Z.add_0_r in Hterm.
  - apply Forall_cons in Hnz as [Hc Hnz]. split; [done|]. split.
    + rewrite <- (Z.add_0_r p). by apply (Hunits 0%nat).
    + apply IH; [done | |].
      * intros i u Hi.
        replace (p + 1 + Z.of_nat i) with (p + Z.of_nat (S i)) by lia.
        by apply Hunits.
      * rewrite strlen_cons in Hterm.
        by replace (p + 1 + strlen s) with (p + (strlen s + 1)) by lia.
Qed.

(** Every address of a string, its terminator included, can be read. *)
Lemma cstring_readable (h : gmap Z Z) p s i :
  cstring h p s → 0 ≤ i ≤ strlen s → is_Some (load h (p + i)).
Proof.
  intros Hs Hi. destruct (decide (i = strlen s)) as [->|Hne].
  - rewrite (cstring_terminator _ _ _ Hs). eauto.
  - destruct (lookup_lt_is_Some_2 s (Z.to_nat i)) as [c Hc].
    { unfold strlen in *. lia. }
    destruct (cstring_lookup _ _ _ _ _ Hs Hc) as [Hload _].
    rewrite Z2Nat.id in Hload by lia. eauto.
Qed.

(** The rest of a string, from any of its positions on, is a string. *)
Lemma cstring_drop (h : gmap Z Z) p s (n : nat) :
  cstring h p s → (n ≤ List.length s)%nat →
  cstring h (p + Z.of_nat n) (drop n s).
Proof.
  intros Hs Hn. apply cstring_intro.
  - apply Forall_drop. by eapply cstring_nonzero.
  - intros i c Hi. rewrite lookup_drop in Hi.
    destruct (cstring_lookup _ _ _ _ _ Hs Hi) as [Hload _].
    by replace (p + Z.of_nat n + Z.of_nat i) with (p + Z.of_nat (n + i)) by lia.
  - unfold strlen. rewrite length_drop.
    replace (p + Z.of_nat n + Z.of_nat (List.length s - n))
      with (p + strlen s) by (unfold strlen; lia).
    by apply cstring_terminator.
Qed.

(** ** Reading *)

(** X1: on a well-formed string [isEmpty] tells whether the string has no
    characters, that is, whether [length] is 0. *)
Theorem isEmpty_cstring (h : gmap Z Z) this s :
  cstring h (data this) s →
  isEmpty h this = Some (bool_decide (s = []))
  ∧ (isEmpty h this = Some true ↔ length h this = Some 0).
Proof.
  intros Hs. rewrite (length_cstring _ _ _ Hs). unfold isEmpty.
  destruct s as [|c s]; simpl in Hs.
  - rewrite Hs. simpl. done.
  - destruct Hs as (Hc & Hp & _). rewrite Hp. simpl.
    apply Z.eqb_neq in Hc. rewrite Hc.
    rewrite strlen_cons. pose proof (strlen_nonneg s).
    split; [done|]. split; intros [=]. lia.
Qed.

(** X2: on a well-formed string [operator[]] at an index up to the length
    returns the character at that index, and the terminator at the length;
    it returns zero at the length only. *)
Theorem index_cstring (h : gmap Z Z) this s (i : nat) :
  cstring h (data this) s → (i ≤ List.length s)%nat →
  index h this (Z.of_nat i) = Some (default 0 (s !! i))
  ∧ (index h this (Z.of_nat i) = Some 0 ↔ i = List.length s).
Proof.
  intros Hs Hi. unfold index.
  destruct (s !! i) as [c|] eqn:Hc; simpl.
  - destruct (cstring_lookup _ _ _ _ _ Hs Hc) as [Hload Hnz].
    rewrite Hload. split; [done|]. apply lookup_lt_Some in Hc.
    split; [intros [=]; done | lia].
  - apply lookup_ge_None in Hc. assert (i = List.length s) as -> by lia.
    pose proof (cstring_terminator _ _ _ Hs) as Hterm.
    unfold strlen in Hterm. by rewrite Hterm.
Qed.

(** X3: a cursor moved forward by [n] characters inside a well-formed string
    sees the rest of the string: its [length] is shorter by [n] and its
    terminator is the same one. *)
Theorem length_plus (h : gmap Z Z) this s (n : nat) :
  cstring h (data this) s → (n ≤ List.length s)%nat →
  length h (plus this (Z.of_nat n)) = Some (strlen s - Z.of_nat n)
  ∧ findTerminatingNull h (plus this (Z.of_nat n))
    = findTerminatingNull h this.
Proof.
  intros Hs Hn. pose proof (cstring_drop _ _ _ n Hs Hn) as Hrest.
  assert (strlen (drop n s) = strlen s - Z.of_nat n) as Hlen.
  { unfold strlen. rewrite length_drop. lia. }
  unfold findTerminatingNull.
  rewrite (length_cstring h (plus this (Z.of_nat n)) _ Hrest).
  rewrite (length_cstring _ _ _ Hs), Hlen. simpl.
  split; [done|]. do 2 f_equal. lia.
Qed.

(** X4: on a non-empty well-formed string [getAndAdvance] returns the first
    character, which is not zero, and leaves the cursor on the well-formed
    rest of the string, one character shorter. *)
Theorem getAndAdvance_cstring (h : gmap Z Z) this c s :
  cstring h (data this) (c :: s) →
  ∃ this', getAndAdvance h this = Some (c, this')
    ∧ c ≠ 0
    ∧ cstring h (data this') s
    ∧ length h this' = Some (strlen s)
    ∧ length h this = Some (strlen s + 1).
Proof.
  intros Hs. exists (incr this).
  rewrite (length_cstring _ _ _ Hs), strlen_cons.
  destruct Hs as (Hc & Hp & Hs). unfold getAndAdvance. rewrite Hp. simpl.
  repeat split; try done. by apply length_cstring.
Qed.

(** X5: the moves of the cursor undo each other and add up: [-] undoes [+],
    [--] undoes [++], two moves are the move by the sum, [+=] and [-=] move
    like [+] and [-], and postfix [++] hands back the cursor as it was. *)
Theorem cursor_moves (this : CharPointer_UTF32) (a b : Z) :
  minus (plus this a) a = this
  ∧ plus (minus this a) a = this
  ∧ decr (incr this) = this
  ∧ incr (decr this) = this
  ∧ plus (plus this a) b = plus this (a + b)
  ∧ add_assign this a = plus this a
  ∧ sub_assign this a = minus this a
  ∧ sub_assign (add_assign this a) a = this
  ∧ post_incr this = (this, plus this 1).
Proof.
  destruct this as [d].
  unfold minus, plus, decr, incr, add_assign, sub_assign, post_incr; simpl.
  repeat split; f_equal; lia.
Qed.

(** ** Writing inside a string *)

(** X6: [writeNull] at position [i] of a well-formed string cuts the string
    there: the first [i] characters stay, [length] becomes [i], and no unit
    but that one changes. *)
Theorem writeNull_truncates (h : gmap Z Z) this s (i : nat) :
  cstring h (data this) s → (i ≤ List.length s)%nat →
  ∃ h', writeNull h (plus this (Z.of_nat i)) = Some h'
    ∧ cstring h' (data this) (take i s)
    ∧ length h' this = Some (Z.of_nat i)
    ∧ ∀ a, a ≠ data this + Z.of_nat i → h' !! a = h !! a.
Proof.
  intros Hs Hi. set (p := data this).
  assert (is_Some (load h (p + Z.of_nat i))) as Hw.
  { apply (cstring_readable h p s); [done | unfold strlen; lia]. }
  pose proof Hw as [u [Hv _]%load_Some].
  exists (<[p + Z.of_nat i := 0]> h).
  assert (strlen (take i s) = Z.of_nat i) as Hlen.
  { unfold strlen. by rewrite length_take_le. }
  assert (cstring (<[p + Z.of_nat i := 0]> h) p (take i s)) as Hcut.
  { apply cstring_intro.
    - apply Forall_take. by eapply cstring_nonzero.
    - intros j c Hj. apply lookup_take_Some in Hj as [Hj Hlt].
      destruct (cstring_lookup _ _ _ _ _ Hs Hj) as [Hload _].
      unfold load in *. rewrite lookup_insert_ne by lia. done.
    - rewrite Hlen. by apply load_insert_eq. }
  unfold writeNull, plus. simpl. fold p. rewrite (store_Some _ _ _ Hw).
  split; [done|]. split; [done|]. split.
  - by rewrite (length_cstring _ this _ Hcut), Hlen.
  - intros a Ha. by apply lookup_insert_ne.
Qed.

(** X7: [replaceChar] with a non-zero character at a position inside a
    well-formed string changes that one character: the string stays
    well-formed and keeps its [length]. *)
Theorem replaceChar_cstring (h : gmap Z Z) this s (i : nat) newChar :
  cstring h (data this) s → (i < List.length s)%nat → newChar ≠ 0 →
  ∃ h', replaceChar h (plus this (Z.of_nat i)) newChar = Some h'
    ∧ cstring h' (data this) (<[i := newChar]> s)
    ∧ length h' this = length h this.
Proof.
  intros Hs Hi Hnz. set (p := data this).
  assert (is_Some (load h (p + Z.of_nat i))) as Hw.
  { apply (cstring_readable h p s); [done | unfold strlen; lia]. }
  pose proof Hw as [u [Hv _]%load_Some].
  exists (<[p + Z.of_nat i := newChar]> h).
  assert (strlen (<[i := newChar]> s) = strlen s) as Hlen.
  { unfold strlen. by rewrite length_insert. }
  assert (cstring (<[p + Z.of_nat i := newChar]> h) p (<[i := newChar]> s))
    as Hnew.
  { apply cstring_intro.
    - apply Forall_insert; [by eapply cstring_nonzero | done].
    - intros j c Hj. apply list_lookup_insert_Some in Hj
        as [(-> & -> & _)|(Hne & Hj)].
      + by apply load_insert_eq.
      + destruct (cstring_lookup _ _ _ _ _ Hs Hj) as [Hload _].
        unfold load in *. rewrite lookup_insert_ne by lia. done.
    - rewrite Hlen. pose proof (cstring_terminator _ _ _ Hs) as Hterm.
      unfold load in *. rewrite lookup_insert_ne; [done|].
      unfold strlen. lia. }
  unfold replaceChar, plus. simpl. fold p. rewrite (store_Some _ _ _ Hw).
  split; [done|]. split; [done|].
  by rewrite (length_cstring _ this _ Hnew), (length_cstring _ _ _ Hs), Hlen.
Qed.

(** X8: appending a character.  With one writable unit after the
    terminator of a well-formed string, [write] of a non-zero character on
    the cursor of [findTerminatingNull], followed by [writeNull] on the
    cursor [write] returns, gives the string with that character added. *)
Theorem write_appends (h : gmap Z Z) this s c :
  cstring h (data this) s → c ≠ 0 →
  is_Some (load h (data this + strlen s + 1)) →
  ∃ q q' h1 h2,
    findTerminatingNull h this = Some q
    ∧ write h q c = Some (q', h1)
    ∧ writeNull h1 q' = Some h2
    ∧ cstring h2 (data this) (s ++ [c])
    ∧ length h2 this = Some (strlen s + 1).
Proof.
  intros Hs Hc Hroom. set (p := data this) in *.
  pose proof (cstring_terminator _ _ _ Hs) as Hterm.
  pose proof Hroom as [u [Hv Hu]%load_Some].
  pose proof Hterm as [Hvt _]%load_Some.
  set (h1 := <[p + strlen s := c]> h).
  set (h2 := <[p + strlen s + 1 := 0]> h1).
  assert (strlen (s ++ [c]) = strlen s + 1) as Hlen.
  { unfold strlen. rewrite length_app. simpl. lia. }
  assert (cstring h2 p (s ++ [c])) as Hnew.
  { apply cstring_intro.
    - apply Forall_app. split; [by eapply cstring_nonzero|].
      by apply Forall_singleton.
    - intros j v Hj. apply lookup_app_Some in Hj as [Hj|[Hge Hj]].
      + destruct (cstring_lookup _ _ _ _ _ Hs Hj) as [Hload _].
        apply lookup_lt_Some in Hj.
        unfold load, h2, h1, strlen in *.
        rewrite !lookup_insert_ne by lia. done.
      + apply list_lookup_singleton_Some in Hj as [Hj <-].
        assert (Z.of_nat j = strlen s) as -> by (unfold strlen; lia).
        unfold load, h2, h1. rewrite Hvt.
        rewrite lookup_insert_ne by lia. apply lookup_insert_eq.
    - rewrite Hlen, Z.add_assoc. by apply load_insert_eq. }
  exists (mkCharPointer_UTF32 (p + strlen s)),
    (mkCharPointer_UTF32 (p + strlen s + 1)), h1, h2.
  unfold findTerminatingNull. rewrite (length_cstring _ _ _ Hs). simpl.
  split; [done|]. split.
  { unfold write. simpl. rewrite store_Some by eauto. done. }
  split.
  { unfold writeNull. simpl. rewrite store_Some; [done|].
    unfold load, h1. rewrite Hv, lookup_insert_ne by lia. eauto. }
  split; [done|].
  by rewrite (length_cstring _ this _ Hnew), Hlen.
Qed.

(** ** Copying with [writeAll] *)

Lemma store_None (h : gmap Z Z) a v : load h a = None → store h a v = None.
Proof.
  unfold load, store. destruct (valid_addr a); [|done]. by intros ->.
Qed.

Lemma store_inv (h h' : gmap Z Z) a v :
  store h a v = Some h' → valid_addr a = true ∧ h' = <[a := v]> h.
Proof.
  unfold store. destruct (valid_addr a); [|done].
  destruct (h !! a); simpl; [|done]. by intros [= <-].
Qed.

Lemma buffer_spec (h : gmap Z Z) p n :
  buffer h p n ↔ ∀ i, 0 ≤ i < Z.of_nat n → is_Some (load h (p + i)).
Proof.
  revert p. induction n as [|n IH]; intros p; simpl.
  - split; [intros _ i Hi; lia | done].
  - rewrite IH. split.
    + intros [Hp Hrest] i Hi. destruct (decide (i = 0)) as [->|Hne].
      * by rewrite Z.add_0_r.
      * replace (p + i) with (p + 1 + (i - 1)) by lia. apply Hrest. lia.
    + intros Hall. split.
      * rewrite <- (Z.add_0_r p). apply Hall. lia.
      * intros i Hi. replace (p + 1 + i) with (p + (i + 1)) by lia.
        apply Hall. lia.
Qed.

Lemma poke_readable (h : gmap Z Z) p s a :
  is_Some (load h a) → is_Some (load (poke h p s) a).
Proof.
  revert h p. induction s as [|c s IH]; intros h p [u [Hv Hu]%load_Some];
    simpl; [|apply IH]; unfold load; rewrite Hv;
    (destruct (decide (p = a)) as [->|Hne];
      [rewrite lookup_insert_eq | rewrite lookup_insert_ne by done]; eauto).
Qed.

Lemma writeAll_loop_self (h : gmap Z Z) s : ∀ fuel p,
  cstring h p s → (List.length s < fuel)%nat →
  writeAll_loop fuel h p p = Some (mkCharPointer_UTF32 (p + strlen s), h).
Proof.
  induction s as [|c s IH]; intros fuel p Hs Hfuel; spend_fuel fuel Hfuel.
  - simpl in Hs. rewrite Hs. simpl. rewrite store_Some by eauto. simpl.
    apply load_Some in Hs as [_ Hs].
    by rewrite insert_id, strlen_nil, Z.add_0_r.
  - destruct Hs as (Hc & Hp & Hs). rewrite Hp. simpl.
    rewrite store_Some by eauto. simpl.
    apply Z.eqb_neq in Hc. rewrite Hc.
    apply load_Some in Hp as [_ Hp]. rewrite insert_id by done.
    rewrite IH; [|done|simpl in Hfuel; lia].
    rewrite strlen_cons. do 3 f_equal. lia.
Qed.

Lemma writeAll_loop_chases (c : Z) : ∀ fuel (h : gmap Z Z) s,
  load h s = Some c → c ≠ 0 → writeAll_loop fuel h (s + 1) s = None.
Proof.
  induction fuel as [|fuel IH]; intros h s Hs Hc; [done|]. simpl.
  rewrite Hs. simpl. destruct (store h (s + 1) c) as [h'|] eqn:Hst; [|done].
  simpl. apply store_inv in Hst as [Hv ->].
  pose proof Hc as Hc'. apply Z.eqb_neq in Hc'. rewrite Hc'.
  apply IH; [|done]. by apply load_insert_eq.
Qed.

Lemma writeAll_loop_no_room s : ∀ fuel (h : gmap Z Z) d p,
  cstring h p s → disjoint d p (strlen s + 1) →
  load h (d + strlen s) = None →
  writeAll_loop fuel h d p = None.
Proof.
  induction s as [|c s IH]; intros fuel h d p Hs Hdisj Hnone;
    (destruct fuel as [|fuel]; [done|]); simpl.
  - simpl in Hs. rewrite Hs. simpl.
    rewrite strlen_nil, Z.add_0_r in Hnone. by rewrite store_None.
  - destruct Hs as (Hc & Hp & Hs). rewrite Hp. simpl.
    destruct (store h d c) as [h'|] eqn:Hst; [|done].
    simpl. apply store_inv in Hst as [Hv ->].
    apply Z.eqb_neq in Hc. rewrite Hc.
    rewrite strlen_cons in *. pose proof (strlen_nonneg s).
    unfold disjoint in Hdisj. apply IH.
    + eapply cstring_ext; [|done]. intros a Ha.
      symmetry. apply lookup_insert_ne. lia.
    + unfold disjoint. lia.
    + unfold load in *. rewrite lookup_insert_ne by lia.
      by replace (d + 1 + strlen s) with (d + (strlen s + 1)) by lia.
Qed.

(** X9: [writeAll] of a well-formed string onto itself changes no memory
    and leaves the cursor on the terminator. *)
Theorem writeAll_self (h : gmap Z Z) this s :
  cstring h (data this) s →
  writeAll h this this = Some (plus this (strlen s), h).
Proof.
  intros Hs. unfold writeAll, plus. pose proof (cstring_size _ _ _ Hs).
  apply writeAll_loop_self; [done | lia].
Qed.

(** X10: [writeAll] never completes when the destination is the unit right
    after the start of a non-empty source: every character it reads is the
    one it has just written, so no terminator is ever read, whatever the
    number of iterations. *)
Theorem writeAll_one_ahead (h : gmap Z Z) src c s :
  cstring h (data src) (c :: s) →
  writeAll h (incr src) src = None
  ∧ ∀ fuel, writeAll_loop fuel h (data src + 1) (data src) = None.
Proof.
  intros (Hc & Hp & _).
  split; [|intros fuel]; by apply (writeAll_loop_chases c).
Qed.

(** X11: [writeAll] has no defined result when the destination has no
    writable unit for the terminator, even if there is room for every
    character of the source. *)
Theorem writeAll_no_room (h : gmap Z Z) this src s :
  cstring h (data src) s →
  disjoint (data this) (data src) (strlen s + 1) →
  load h (data this + strlen s) = None →
  writeAll h this src = None.
Proof. intros Hs Hdisj Hnone. by apply (writeAll_loop_no_room s). Qed.

(** X12: after [writeAll] into a separate buffer the cursor it returns is
    the one [findTerminatingNull] finds from the start of the destination,
    and the destination has the [length] and the [sizeInBytes] of the
    source. *)
Theorem writeAll_then_measure (h : gmap Z Z) this src s :
  cstring h (data src) s →
  buffer h (data this) (S (List.length s)) →
  disjoint (data this) (data src) (strlen s + 1) →
  ∃ q h', writeAll h this src = Some (q, h')
    ∧ findTerminatingNull h' this = Some q
    ∧ length h' this = length h src
    ∧ sizeInBytes h' this = sizeInBytes h src.
Proof.
  intros Hs Hb Hdisj.
  destruct (writeAll_effect h this src s Hs Hb Hdisj)
    as (h' & Hw & Hcopy & _ & _).
  exists (plus this (strlen s)), h'. split; [done|].
  unfold findTerminatingNull, sizeInBytes.
  by rewrite (length_cstring _ _ _ Hcopy), (length_cstring _ _ _ Hs).
Qed.

(** X13: chained copies concatenate.  A second [writeAll], made with the
    cursor the first one returned, overwrites the first terminator: the
    destination then holds the first source followed by the second, and
    the cursor ends on the terminator of the whole. *)
Theorem writeAll_chain (h : gmap Z Z) this src1 src2 s1 s2 :
  cstring h (data src1) s1 →
  cstring h (data src2) s2 →
  buffer h (data this) (S (List.length s1 + List.length s2)) →
  apart (data this) (strlen s1 + strlen s2 + 1) (data src1) (strlen s1 + 1) →
  apart (data this) (strlen s1 + strlen s2 + 1) (data src2) (strlen s2 + 1) →
  ∃ q1 h1 h2,
    writeAll h this src1 = Some (q1, h1)
    ∧ writeAll h1 q1 src2 = Some (plus this (strlen s1 + strlen s2), h2)
    ∧ cstring h2 (data this) (s1 ++ s2)
    ∧ length h2 this = Some (strlen s1 + strlen s2).
Proof.
  intros Hs1 Hs2 Hb Ha1 Ha2. set (d := data this) in *.
  pose proof (strlen_nonneg s1). pose proof (strlen_nonneg s2).
  unfold apart in Ha1, Ha2. rewrite buffer_spec in Hb.
  assert (buffer h d (S (List.length s1))) as Hb1.
  { apply buffer_spec. intros i Hi. apply Hb. lia. }
  set (h1 := poke h d s1). set (q1 := plus this (strlen s1)).
  assert (cstring h1 d s1) as Hc1.
  { apply poke_cstring; [by eapply cstring_nonzero | done]. }
  assert (cstring h1 (data src2) s2) as Hs2'.
  { eapply cstring_ext; [|exact Hs2]. intros a Ha. symmetry.
    apply poke_frame. lia. }
  assert (buffer h1 (data q1) (S (List.length s2))) as Hb2.
  { apply buffer_spec. intros i Hi. apply poke_readable. simpl. fold d.
    replace (d + strlen s1 + i) with (d + (strlen s1 + i)) by lia.
    apply Hb. unfold strlen. lia. }
  set (h2 := poke h1 (data q1) s2).
  assert (cstring h2 (data q1) s2) as Hc2.
  { apply poke_cstring; [by eapply cstring_nonzero | done]. }
  assert (strlen (s1 ++ s2) = strlen s1 + strlen s2) as Hlen.
  { unfold strlen. rewrite length_app. lia. }
  assert (cstring h2 d (s1 ++ s2)) as Hcat.
  { apply cstring_intro.
    - apply Forall_app. split; by eapply cstring_nonzero.
    - intros i c Hi. apply lookup_app_Some in Hi as [Hi|[Hge Hi]].
      + destruct (cstring_lookup _ _ _ _ _ Hc1 Hi) as [Hload _].
        apply lookup_lt_Some in Hi.
        unfold load in *. unfold h2. rewrite poke_frame; [done|].
        simpl. unfold strlen. lia.
      + destruct (cstring_lookup _ _ _ _ _ Hc2 Hi) as [Hload _].
        simpl in Hload. fold d in Hload.
        replace (d + Z.of_nat i)
          with (d + strlen s1 + Z.of_nat (i - List.length s1))
          by (unfold strlen; lia).
        done.
    - rewrite Hlen, Z.add_assoc.
      apply (cstring_terminator h2 (data q1) s2 Hc2). }
  exists q1, h1, h2. split.
  { apply writeAll_cstring; [done | done | unfold disjoint; fold d; lia]. }
  split.
  { rewrite (writeAll_cstring h1 q1 src2 s2); [| done | done |].
    - unfold plus, q1. simpl. by rewrite Z.add_assoc.
    - unfold disjoint. simpl. fold d. lia. }
  split; [done|].
  by rewrite (length_cstring _ this _ Hcat), Hlen.
Qed.

(** ** Searching *)

Lemma indexOf_first_index (h : gmap Z Z) this charToFind s :
  cstring h (data this) s → strlen s ≤ INT_MAX →
  indexOf h this charToFind = Some (first_index charToFind s).
Proof.
  intros Hs Hmax. unfold indexOf.
  pose proof (cstring_bounds _ _ _ Hs) as [Hd _].
  pose proof (cstring_size _ _ _ Hs).
  rewrite (indexOf_loop_cstring h (data this) charToFind s);
    [| done | done | lia | by rewrite Z.add_0_r | lia].
  f_equal. destruct (decide _); lia.
Qed.

(** X14: [indexOf] never finds the terminator: asked for the character
    zero it returns -1, although the unit at offset [length()] is zero. *)
Theorem indexOf_zero (h : gmap Z Z) this s :
  cstring h (data this) s → strlen s ≤ INT_MAX →
  indexOf h this 0 = Some (-1)
  ∧ index h this (strlen s) = Some 0.
Proof.
  intros Hs Hmax. split; [|by apply cstring_terminator].
  rewrite (indexOf_first_index _ _ _ _ Hs Hmax). f_equal.
  destruct (first_index_spec 0 s) as [[Hr _]|(i & _ & Hi & _)]; [done|].
  by destruct (cstring_lookup _ _ _ _ _ Hs Hi) as [_ Hnz].
Qed.

(** A result of the loop other than the sentinel is the offset of a unit
    equal to the target, reached over units that are all non-zero. *)
Lemma indexOf_loop_found (h : gmap Z Z) d c r : ∀ fuel i,
  0 ≤ i → indexOf_loop fuel h d c i = Some r → r ≠ -1 →
  i ≤ r ∧ load h (d + r) = Some c ∧ c ≠ 0
  ∧ ∀ j, i ≤ j ≤ r → ∃ u, load h (d + j) = Some u ∧ u ≠ 0.
Proof.
  induction fuel as [|fuel IH]; intros i Hi Hloop Hr; [done|].
  simpl in Hloop.
  destruct (load h (d + i)) as [u|] eqn:Hu; simpl in Hloop; [|done].
  destruct (Z.eqb_spec u 0) as [Hz|Hnz]; [by injection Hloop as <-|].
  destruct (Z.eqb_spec u c) as [->|Hne].
  - injection Hloop as <-. split; [lia|]. split; [done|]. split; [done|].
    intros j Hj. assert (j = i) as -> by lia. eauto.
  - destruct (i <? INT_MAX); [|done].
    destruct (IH (i + 1)) as (Hge & Hload & Hc & Hpassed); [lia | done | done |].
    split; [lia|]. split; [done|]. split; [done|].
    intros j Hj. destruct (decide (j = i)) as [->|Hji]; [eauto|].
    apply Hpassed. lia.
Qed.

(** X15: a result of [indexOf] other than -1 is an offset before the
    terminator, and [operator[]] at that offset returns the character that
    was looked for. *)
Theorem indexOf_then_index (h : gmap Z Z) this charToFind s r :
  cstring h (data this) s →
  indexOf h this charToFind = Some r → r ≠ -1 →
  0 ≤ r < strlen s
  ∧ index h this r = Some charToFind
  ∧ charToFind ≠ 0.
Proof.
  intros Hs Hr Hfound. unfold indexOf in Hr.
  destruct (indexOf_loop_found h (data this) charToFind r _ 0
              (Z.le_refl 0) Hr Hfound) as (Hge & Hload & Hnz & Hpassed).
  split; [|done]. split; [done|].
  destruct (Z.lt_ge_cases r (strlen s)) as [Hlt|Hle]; [done|].
  pose proof (strlen_nonneg s).
  destruct (Hpassed (strlen s)) as (u & Hu & Hunz); [lia|].
  rewrite (cstring_terminator _ _ _ Hs) in Hu. by injection Hu as <-.
Qed.

(** ** Storage and locality *)

(** X17: a [write] outside a well-formed string leaves the string as it
    is: it stays well-formed and keeps its [length], its terminator and its
    [sizeInBytes]. *)
Theorem write_elsewhere (h : gmap Z Z) this other c s q h' :
  cstring h (data this) s →
  ¬ (data this ≤ data other ≤ data this + strlen s) →
  write h other c = Some (q, h') →
  cstring h' (data this) s
  ∧ length h' this = length h this
  ∧ findTerminatingNull h' this = findTerminatingNull h this
  ∧ sizeInBytes h' this = sizeInBytes h this.
Proof.
  intros Hs Hout Hw. unfold write in Hw.
  destruct (store h (data other) c) as [h1|] eqn:Hst; [|done].
  simpl in Hw. injection Hw as _ <-.
  apply store_inv in Hst as [_ ->].
  assert (cstring (<[data other := c]> h) (data this) s) as Hs'.
  { eapply cstring_ext; [|exact Hs]. intros a Ha. symmetry.
    apply lookup_insert_ne. lia. }
  unfold findTerminatingNull, sizeInBytes.
  by rewrite (length_cstring _ _ _ Hs'), (length_cstring _ _ _ Hs).
Qed.

Lemma writeAll_loop_before s : ∀ fuel (h : gmap Z Z) d p,
  cstring h p s → buffer h d (S (List.length s)) → d < p →
  (List.length s < fuel)%nat →
  writeAll_loop fuel h d p
  = Some (mkCharPointer_UTF32 (d + strlen s), poke h d s).
Proof.
  induction s as [|c s IH]; intros fuel h d p Hs Hb Hlt Hfuel;
    spend_fuel fuel Hfuel.
  - simpl in Hs. destruct Hb as [Hd _]. rewrite Hs. simpl.
    rewrite (store_Some _ _ _ Hd). simpl.
    by rewrite strlen_nil, Z.add_0_r.
  - destruct Hs as (Hc & Hp & Hs). destruct Hb as [Hd Hb].
    rewrite Hp. simpl. rewrite (store_Some _ _ _ Hd). simpl.
    apply Z.eqb_neq in Hc. rewrite Hc. rewrite strlen_cons.
    rewrite IH.
    + do 3 f_equal. lia.
    + eapply cstring_ext; [|done]. intros a Ha.
      symmetry. apply lookup_insert_ne. pose proof (strlen_nonneg s). lia.
    + by apply buffer_insert.
    + lia.
    + simpl in Hfuel. lia.
Qed.

(** X18: [writeAll] to a destination that starts before the source moves
    the string down correctly even when the two regions overlap: every
    unit is read before it is overwritten. *)
Theorem writeAll_moves_down (h : gmap Z Z) this src s :
  cstring h (data src) s →
  buffer h (data this) (S (List.length s)) →
  data this < data src →
  ∃ h', writeAll h this src = Some (plus this (strlen s), h')
    ∧ cstring h' (data this) s
    ∧ length h' this = Some (strlen s).
Proof.
  intros Hs Hb Hlt. exists (poke h (data this) s).
  assert (cstring (poke h (data this) s) (data this) s) as Hcopy.
  { apply poke_cstring; [by eapply cstring_nonzero | done]. }
  split; [|split; [done | by apply length_cstring]].
  unfold writeAll, plus. pose proof (cstring_size _ _ _ Hs).
  apply writeAll_loop_before; [done | done | done | lia].
Qed.

(** * The further properties on the sample memories *)

Lemma sample_wide_cstring : cstring sample_wide (data sample_src) sample_text.
Proof. repeat split; done. Defined.

Lemma sample_wide_cstring2 :
  cstring sample_wide (data sample_src2) sample_text2.
Proof. repeat split; done. Defined.

Lemma isEmpty_cstring_witness :
  isEmpty sample_heap sample_src = Some (bool_decide (sample_text = []))
  ∧ (isEmpty sample_heap sample_src = Some true
     ↔ length sample_heap sample_src = Some 0).
Proof.
  exact (isEmpty_cstring sample_heap sample_src sample_text sample_cstring).
Defined.

Lemma index_cstring_witness :
  index sample_heap sample_src 1 = Some 66
  ∧ (index sample_heap sample_src 1 = Some 0 ↔ 1%nat = 2%nat).
Proof.
  apply (index_cstring sample_heap sample_src sample_text 1 sample_cstring).
  simpl. lia.
Defined.

Lemma length_plus_witness :
  length sample_heap (plus sample_src 1) = Some 1
  ∧ findTerminatingNull sample_heap (plus sample_src 1)
    = findTerminatingNull sample_heap sample_src.
Proof.
  apply (length_plus sample_heap sample_src sample_text 1 sample_cstring).
  simpl. lia.
Defined.

Lemma getAndAdvance_cstring_witness :
  ∃ this', getAndAdvance sample_heap sample_src = Some (65, this')
    ∧ 65 ≠ 0
    ∧ cstring sample_heap (data this') [66]
    ∧ length sample_heap this' = Some 1
    ∧ length sample_heap sample_src = Some 2.
Proof.
  exact (getAndAdvance_cstring sample_heap sample_src 65 [66] sample_cstring).
Defined.

Lemma writeNull_truncates_witness :
  ∃ h', writeNull sample_heap (plus sample_src 1) = Some h'
    ∧ cstring h' (data sample_src) [65]
    ∧ length h' sample_src = Some 1
    ∧ ∀ a, a ≠ data sample_src + 1 → h' !! a = sample_heap !! a.
Proof.
  apply (writeNull_truncates sample_heap sample_src sample_text 1
           sample_cstring).
  simpl. lia.
Defined.

Lemma replaceChar_cstring_witness :
  ∃ h', replaceChar sample_heap (plus sample_src 1) 90 = Some h'
    ∧ cstring h' (data sample_src) [65; 90]
    ∧ length h' sample_src = length sample_heap sample_src.
Proof.
  apply (replaceChar_cstring sample_heap sample_src sample_text 1 90
           sample_cstring).
  - simpl. lia.
  - lia.
Defined.

Lemma write_appends_witness :
  ∃ q q' h1 h2,
    findTerminatingNull sample_wide sample_src = Some q
    ∧ write sample_wide q 68 = Some (q', h1)
    ∧ writeNull h1 q' = Some h2
    ∧ cstring h2 (data sample_src) [65; 66; 68]
    ∧ length h2 sample_src = Some 3.
Proof.
  apply (write_appends sample_wide sample_src sample_text 68
           sample_wide_cstring).
  - lia.
  - by eexists.
Defined.

Lemma writeAll_self_witness :
  writeAll sample_heap sample_src sample_src
  = Some (plus sample_src 2, sample_heap).
Proof.
  exact (writeAll_self sample_heap sample_src sample_text sample_cstring).
Defined.

Lemma writeAll_one_ahead_witness :
  writeAll sample_heap (incr sample_src) sample_src = None
  ∧ ∀ fuel, writeAll_loop fuel sample_heap (data sample_src + 1)
              (data sample_src) = None.
Proof.
  exact (writeAll_one_ahead sample_heap sample_src 65 [66] sample_cstring).
Defined.

Lemma writeAll_no_room_witness :
  writeAll sample_heap (plus sample_dest 1) sample_src = None.
Proof.
  apply (writeAll_no_room sample_heap (plus sample_dest 1) sample_src
           sample_text sample_cstring).
  - right. by vm_compute.
  - reflexivity.
Defined.

Lemma writeAll_then_measure_witness :
  ∃ q h', writeAll sample_heap sample_dest sample_src = Some (q, h')
    ∧ findTerminatingNull h' sample_dest = Some q
    ∧ length h' sample_dest = length sample_heap sample_src
    ∧ sizeInBytes h' sample_dest = sizeInBytes sample_heap sample_src.
Proof.
  exact (writeAll_then_measure sample_heap sample_dest sample_src sample_text
           sample_cstring sample_buffer sample_disjoint).
Defined.

Lemma writeAll_chain_witness :
  ∃ q1 h1 h2,
    writeAll sample_wide sample_dest sample_src = Some (q1, h1)
    ∧ writeAll h1 q1 sample_src2 = Some (plus sample_dest 3, h2)
    ∧ cstring h2 (data sample_dest) [65; 66; 67]
    ∧ length h2 sample_dest = Some 3.
Proof.
  apply (writeAll_chain sample_wide sample_dest sample_src sample_src2
           sample_text sample_text2 sample_wide_cstring sample_wide_cstring2).
  - repeat split; by eexists.
  - right. by vm_compute.
  - right. by vm_compute.
Defined.

Lemma indexOf_zero_witness :
  indexOf sample_heap sample_src 0 = Some (-1)
  ∧ index sample_heap sample_src 2 = Some 0.
Proof.
  apply (indexOf_zero sample_heap sample_src sample_text sample_cstring).
  by vm_compute.
Defined.

Lemma indexOf_then_index_witness :
  0 ≤ 1 < 2 ∧ index sample_heap sample_src 1 = Some 66 ∧ 66 ≠ 0.
Proof.
  apply (indexOf_then_index sample_heap sample_src 66 sample_text 1
           sample_cstring).
  - reflexivity.
  - lia.
Defined.

Lemma getBytesRequiredFor_cstring_witness :
  getBytesRequiredFor sample_heap sample_src = Some 8
  ∧ sizeInBytes sample_heap sample_src = Some 12.
Proof.
  exact (getBytesRequiredFor_cstring sample_heap sample_src sample_text
           sample_cstring).
Defined.

Lemma write_elsewhere_witness :
  cstring (<[10 := 65]> sample_heap) (data sample_src) sample_text
  ∧ length (<[10 := 65]> sample_heap) sample_src
    = length sample_heap sample_src
  ∧ findTerminatingNull (<[10 := 65]> sample_heap) sample_src
    = findTerminatingNull sample_heap sample_src
  ∧ sizeInBytes (<[10 := 65]> sample_heap) sample_src
    = sizeInBytes sample_heap sample_src.
Proof.
  apply (write_elsewhere sample_heap sample_src sample_dest 65 sample_text
           (incr sample_dest) (<[10 := 65]> sample_heap) sample_cstring).
  - simpl. unfold strlen. simpl. lia.
  - reflexivity.
Defined.

Lemma writeAll_moves_down_witness :
  ∃ h', writeAll sample_heap sample_src (plus sample_src 1)
        = Some (plus sample_src 1, h')
    ∧ cstring h' (data sample_src) [66]
    ∧ length h' sample_src = Some 1.
Proof.
  apply (writeAll_moves_down sample_heap sample_src (plus sample_src 1) [66]).
  - repeat split; done.
  - repeat split; by eexists.
  - simpl. lia.
Defined.

(** * Strings longer than an [int] can count *)

(** The counter of [indexOf] is an [int]: when the first [INT_MAX + 1] units
    are neither zero nor the target, the increment overflows and the search
    has no defined result, whatever the number of iterations. *)
Lemma indexOf_loop_overflow (h : gmap Z Z) d c : ∀ fuel i,
  0 ≤ i ≤ INT_MAX →
  (∀ j, i ≤ j ≤ INT_MAX → ∃ u, load h (d + j) = Some u ∧ u ≠ 0 ∧ u ≠ c) →
  indexOf_loop fuel h d c i = None.
Proof.
  induction fuel as [|fuel IH]; intros i Hi Hunits; [done|]. simpl.
  destruct (Hunits i) as (u & Hu & Hnz & Hne); [lia|].
  rewrite Hu. simpl.
  apply Z.eqb_neq in Hnz, Hne. rewrite Hnz, Hne.
  destruct (Z.ltb_spec i INT_MAX) as [Hlt|Hge]; [|done].
  apply IH; [lia|]. intros j Hj. apply Hunits. lia.
Qed.

Lemma long_len_Z : Z.of_nat long_len = 2 ^ 31.
Proof. unfold long_len. apply Z2Nat.id. lia. Qed.

Lemma run_heap_unit (n : nat) j :
  sizeof_CharType * (Z.of_nat n + 2) ≤ size_t_modulus →
  0 ≤ j < Z.of_nat n → load (run_heap n) (1 + j) = Some 1.
Proof.
  intros Hfit Hj. apply load_Some. split.
  - apply valid_addr_spec. unfold sizeof_CharType in *. lia.
  - unfold run_heap. rewrite lookup_insert_ne by lia.
    apply lookup_gset_to_gmap_Some. split; [|done].
    apply elem_of_list_to_set, elem_of_seqZ. lia.
Qed.

Lemma run_heap_terminator (n : nat) :
  sizeof_CharType * (Z.of_nat n + 2) ≤ size_t_modulus →
  load (run_heap n) (1 + Z.of_nat n) = Some 0.
Proof.
  intros Hfit. apply load_Some. split.
  - apply valid_addr_spec. unfold sizeof_CharType in *. lia.
  - unfold run_heap. rewrite Z.add_comm. apply lookup_insert_eq.
Qed.

Lemma run_heap_cstring (n : nat) :
  sizeof_CharType * (Z.of_nat n + 2) ≤ size_t_modulus →
  cstring (run_heap n) 1 (replicate n 1).
Proof.
  intros Hfit. apply cstring_intro.
  - apply Forall_replicate. lia.
  - intros i c [-> Hi]%lookup_replicate.
    apply run_heap_unit; [done | lia].
  - unfold strlen. rewrite length_replicate.
    by apply run_heap_terminator.
Qed.

(** The long string lies inside the address space: it takes 8 GiB. *)
Lemma long_fits : sizeof_CharType * (Z.of_nat long_len + 2) ≤ size_t_modulus.
Proof.
  rewrite long_len_Z. unfold sizeof_CharType, size_t_modulus, size_t_bits. lia.
Qed.

Lemma long_cstring : cstring long_heap (data long_src) long_text.
Proof. exact (run_heap_cstring long_len long_fits). Qed.

Lemma long_heap_unit j : 0 ≤ j ≤ INT_MAX → load long_heap (1 + j) = Some 1.
Proof.
  intros Hj. apply (run_heap_unit long_len j long_fits).
  rewrite long_len_Z. unfold INT_MAX in Hj. lia.
Qed.

Lemma indexOf_overflow (h : gmap Z Z) this c :
  (∀ j, 0 ≤ j ≤ INT_MAX →
        ∃ u, load h (data this + j) = Some u ∧ u ≠ 0 ∧ u ≠ c) →
  indexOf h this c = None.
Proof.
  intros Hunits. unfold indexOf. apply indexOf_loop_overflow; [|done].
  unfold INT_MAX. lia.
Qed.

Lemma long_indexOf : indexOf long_heap long_src 2 = None.
Proof.
  apply indexOf_overflow. intros j Hj. exists 1.
  split; [by apply long_heap_unit|]. split; lia.
Qed.

(** C7, as the spec words it, fails on a string of 2^31 characters none of
    which is the target: the string is well-formed, and the search has no
    result instead of -1, because its [int] counter overflows. *)
Lemma indexOf_long_string_undefined :
  ¬ finds_or_sentinel long_heap long_src 2 long_text.
Proof.
  unfold finds_or_sentinel. intros Hclaim.
  destruct (Hclaim long_cstring) as (r & Hr & _).
  pose proof (eq_trans (eq_sym long_indexOf) Hr) as Habs.
  discriminate Habs.
Qed.
